(** * pinionCoin: a proof-of-work block chain (src/chain.js, src/mining.js)

    A shallow embedding of the two classes of [src/chain.js],
    [CryptoBlock] and [CryptoBlockchain], and of the demo driver
    [src/mining.js], followed by the properties of the chain.

    - JavaScript strings are byte strings (UTF-8), as [crypto-js] hashes them.
    - The Numbers held by [index], [nonce] and [difficulty] are integers of
      magnitude at most [2^53], modelled in [Z]; [this.nonce++] is written
      with the saturation of IEEE doubles at [2^53].
    - Block objects live in a store and are named by their address: the
      chain holds references, and [addNewBlock] mutates in place the block
      it is given.
    - The [while] loop of [proofOfWork] has no bound in the source: the
      model counts its iterations down from [fuel] and answers [Timeout]
      when none is left.
    - [SHA256] is the digest of the [crypto-js] package, modelled by the
      FIPS 180-4 algorithm on 32-bit words held in primitive integers. *)

From Stdlib Require Import ZArith Uint63 Ascii String DecimalString.
From stdpp Require Import base option list strings.
Import ListNotations.

Local Open Scope Z_scope.

#[local] Set Warnings "-register-all".

(** ** The hash function of [crypto-js/sha256] *)

Module Sha2.

(** Primality by trial division, and the first [count] primes. *)
Definition is_prime (n : Z) : bool :=
  (1 <? n) && forallb (fun d => negb (n mod d =? 0))
                      (map Z.of_nat (seq 2 (Z.to_nat n - 2))).

Definition primes (count : nat) : list Z :=
  take count (filter (fun n => is_prime n = true) (map Z.of_nat (seq 2 400))).

(** The integer cube root of [n], one bit at a time from bit [bits - 1]. *)
Fixpoint cbrt_bits (bits : nat) (n r : Z) : Z :=
  match bits with
  | O => r
  | S bits' =>
      let r' := r + 2 ^ Z.of_nat bits' in
      cbrt_bits bits' n (if r' * r' * r' <=? n then r' else r)
  end.

Definition cbrt_frac32 (p : Z) : Z := cbrt_bits 40 (p * 2 ^ 96) 0 mod 2 ^ 32.
Definition sqrt_frac32 (p : Z) : Z := Z.sqrt (p * 2 ^ 64) mod 2 ^ 32.

Local Open Scope uint63_scope.

Definition mask32 : int := 0xFFFFFFFF.
Definition add32 (a b : int) : int := (a + b) land mask32.
Definition rotr (n x : int) : int :=
  (x >> n) lor ((x << (32 - n)) land mask32).
Definition not32 (x : int) : int := x lxor mask32.
Definition Ch (x y z : int) : int := (x land y) lxor (not32 x land z).
Definition Maj (x y z : int) : int :=
  ((x land y) lxor (x land z)) lxor (y land z).
Definition Sigma0 (x : int) : int := (rotr 2 x lxor rotr 13 x) lxor rotr 22 x.
Definition Sigma1 (x : int) : int := (rotr 6 x lxor rotr 11 x) lxor rotr 25 x.
Definition sigma0 (x : int) : int := (rotr 7 x lxor rotr 18 x) lxor (x >> 3).
Definition sigma1 (x : int) : int := (rotr 17 x lxor rotr 19 x) lxor (x >> 10).

(** The round constants are the first 32 bits of the fractional parts of
    the cube roots of the first 64 primes (FIPS 180-4, section 4.2.2). *)
Definition K : list int :=
  Eval vm_compute in map (fun p => Uint63.of_Z (cbrt_frac32 p)) (primes 64).

Definition int_of_nat (n : nat) : int := Uint63.of_Z (Z.of_nat n).

Definition byte_of_ascii (c : ascii) : int :=
  let '(Ascii b0 b1 b2 b3 b4 b5 b6 b7) := c in
  let bit (b : bool) (v : int) : int := if b then v else 0 in
  bit b0 1 + bit b1 2 + bit b2 4 + bit b3 8
  + bit b4 16 + bit b5 32 + bit b6 64 + bit b7 128.

Definition bytes_of (s : string) : list int :=
  map byte_of_ascii (list_ascii_of_string s).

(** [n] bytes of [x], most significant first. *)
Definition be_bytes (n : nat) (x : int) : list int :=
  map (fun i => (x >> (8 * int_of_nat i)) land 0xFF) (rev (seq 0 n)).

(** The message, the byte [0x80], zero bytes up to 56 modulo 64, and the
    bit length of the message on 8 bytes. *)
Definition pad (msg : list int) : list int :=
  let len := length msg in
  let k := ((119 - len mod 64) mod 64)%nat in
  msg ++ [0x80] ++ replicate k 0 ++ be_bytes 8 (8 * int_of_nat len).

Fixpoint words (bs : list int) : list int :=
  match bs with
  | a :: b :: c :: d :: r =>
      ((a << 24) lor (b << 16) lor (c << 8) lor d) :: words r
  | _ => []
  end.

(** The message schedule: [win] holds the last sixteen words, the most
    recent one first. *)
Fixpoint expand (n : nat) (win : list int) : list int :=
  match n with
  | O => []
  | S n' =>
      match win with
      | [w1; w2; w3; w4; w5; w6; w7; w8; w9; w10; w11; w12; w13; w14; w15; w16] =>
          let w := add32 (add32 (sigma1 w2) w7) (add32 (sigma0 w15) w16) in
          w :: expand n'
                 [w; w1; w2; w3; w4; w5; w6; w7; w8; w9; w10; w11; w12; w13; w14; w15]
      | _ => []
      end
  end.

Definition schedule (blk : list int) : list int := blk ++ expand 48 (rev blk).

Record regs := Regs
  { ra : int; rb : int; rc : int; rd : int;
    re : int; rf : int; rg : int; rh : int }.

Definition round (s : regs) (kw : int * int) : regs :=
  let '(k, w) := kw in
  let t1 :=
    add32 (add32 (add32 (rh s) (Sigma1 (re s)))
                 (add32 (Ch (re s) (rf s) (rg s)) k)) w in
  let t2 := add32 (Sigma0 (ra s)) (Maj (ra s) (rb s) (rc s)) in
  Regs (add32 t1 t2) (ra s) (rb s) (rc s) (add32 (rd s) t1) (re s) (rf s) (rg s).

Definition compress (h : regs) (blk : list int) : regs :=
  let s := fold_left round (combine K (schedule blk)) h in
  Regs (add32 (ra h) (ra s)) (add32 (rb h) (rb s))
       (add32 (rc h) (rc s)) (add32 (rd h) (rd s))
       (add32 (re h) (re s)) (add32 (rf h) (rf s))
       (add32 (rg h) (rg s)) (add32 (rh h) (rh s)).

Fixpoint blocks (n : nat) (h : regs) (ws : list int) : regs :=
  match n with
  | O => h
  | S n' => blocks n' (compress h (take 16 ws)) (drop 16 ws)
  end.

(** The initial hash value: the first 32 bits of the fractional parts of
    the square roots of the first 8 primes (section 5.3.3). *)
Definition init : regs :=
  Eval vm_compute in
    match map (fun p => Uint63.of_Z (sqrt_frac32 p)) (primes 8) with
    | [a; b; c; d; e; f; g; h] => Regs a b c d e f g h
    | _ => Regs 0 0 0 0 0 0 0 0
    end.

Definition digest (msg : list int) : regs :=
  let ws := words (pad msg) in
  blocks (length ws / 16)%nat init ws.

Definition hexchars : list ascii :=
  ["0"; "1"; "2"; "3"; "4"; "5"; "6"; "7"; "8"; "9"; "a"; "b"; "c"; "d"; "e"; "f"]%char.

(** The [n]-th character of [l]. *)
Fixpoint char_at (l : list ascii) (n : int) : ascii :=
  match l with
  | [] => "0"%char
  | c :: l' => if n =? 0 then c else char_at l' (n - 1)
  end.

Definition hexdigit (n : int) : ascii := char_at hexchars n.

Definition hex32 (x : int) (rest : string) : string :=
  fold_right (fun sh acc => String (hexdigit ((x >> sh) land 0xF)) acc)
             rest [28; 24; 20; 16; 12; 8; 4; 0].

(** [WordArray.toString()]: the digest in lower-case hexadecimal. *)
Definition to_hex (s : regs) : string :=
  hex32 (ra s) (hex32 (rb s) (hex32 (rc s) (hex32 (rd s)
  (hex32 (re s) (hex32 (rf s) (hex32 (rg s) (hex32 (rh s) EmptyString))))))).

End Sha2.

(** [SHA256(message).toString()] *)
Definition SHA256 (message : string) : string :=
  Sha2.to_hex (Sha2.digest (Sha2.bytes_of message)).

Arguments SHA256 : simpl never.

(** ** JavaScript values and conversions *)

(** [Number.prototype.toString] on an integer (exact below [10^21]). *)
Definition Number_toString (n : Z) : string :=
  NilZero.string_of_int (Z.to_int n).

(** [x++] on a Number holding an integer: beyond [2^53] the successor is
    not representable and the sum rounds back to [x]. *)
Definition js_incr (x : Z) : Z :=
  if x <? 2 ^ 53 then x + 1 else x.

(** The payload of a block: a JSON value.  An object lists its own
    properties in insertion order. *)
Inductive json : Type :=
  | JNull
  | JBool (b : bool)
  | JNumber (n : Z)
  | JString (s : string)
  | JArray (items : list json)
  | JObject (props : list (string * json)).

Definition hex4 (n : N) : string :=
  let d (k : N) := nth (N.to_nat ((n / k) mod 16)%N) Sha2.hexchars "0"%char in
  String (d 4096%N) (String (d 256%N) (String (d 16%N) (String (d 1%N) EmptyString))).

(** The characters U+0022 and U+005C. *)
Definition dquote : ascii := Ascii false true false false false true false false.
Definition backslash : ascii := Ascii false false true true true false true false.

(** The escapes of [JSON.stringify]'s QuoteJSONString, byte by byte: the
    quote, the backslash, and the control characters below U+0020. *)
Definition escape_control (n : N) : string :=
  if (n =? 8)%N then String backslash "b"
  else if (n =? 12)%N then String backslash "f"
  else if (n =? 10)%N then String backslash "n"
  else if (n =? 13)%N then String backslash "r"
  else if (n =? 9)%N then String backslash "t"
  else String backslash ("u" +:+ hex4 n).

Definition escape_char (c : ascii) : string :=
  if Ascii.eqb c dquote then String backslash (String dquote EmptyString)
  else if Ascii.eqb c backslash then String backslash (String backslash EmptyString)
  else if (N_of_ascii c <? 32)%N then escape_control (N_of_ascii c)
  else String c EmptyString.

Fixpoint escape (s : string) : string :=
  match s with
  | EmptyString => EmptyString
  | String c s' => escape_char c +:+ escape s'
  end.

Definition quote (s : string) : string :=
  String dquote (escape s +:+ String dquote EmptyString).

Fixpoint join (sep : string) (l : list string) : string :=
  match l with
  | [] => EmptyString
  | [x] => x
  | x :: l' => x +:+ sep +:+ join sep l'
  end.

(** [JSON.stringify(data)] *)
Fixpoint JSON_stringify (j : json) : string :=
  match j with
  | JNull => "null"
  | JBool true => "true"
  | JBool false => "false"
  | JNumber n => Number_toString n
  | JString s => quote s
  | JArray items => "[" +:+ join "," (map JSON_stringify items) +:+ "]"
  | JObject props =>
      "{" +:+ join "," (map (fun '(k, v) => quote k +:+ ":" +:+ JSON_stringify v) props)
          +:+ "}"
  end.

(** Values compared by [===] and [!==] in the chain.  A method read off an
    object without calling it is the function object of the prototype. *)
Inductive method : Type := m_computeHash | m_proofOfWork.

Inductive value : Type :=
  | VUndefined
  | VNumber (n : Z)
  | VString (s : string)
  | VFunction (m : method).

#[global] Instance method_eq_dec : EqDecision method.
Proof. solve_decision. Defined.

(** [v === w]: values of different types are never equal. *)
Definition strict_eq (v w : value) : bool :=
  match v, w with
  | VUndefined, VUndefined => true
  | VNumber a, VNumber b => a =? b
  | VString a, VString b => bool_decide (a = b)
  | VFunction f, VFunction g => bool_decide (f = g)
  | _, _ => false
  end.

(** [v !== w] *)
Definition strict_neq (v w : value) : bool := negb (strict_eq v w).

(** ** Blocks and the store *)

Record CryptoBlock : Type := mkCryptoBlock
  { index : Z;
    timestamp : string;
    data : json;
    precedingHash : string;
    hash : string;
    nonce : Z }.

Definition set_precedingHash (v : string) (b : CryptoBlock) : CryptoBlock :=
  mkCryptoBlock (index b) (timestamp b) (data b) v (hash b) (nonce b).
Definition set_hash (v : string) (b : CryptoBlock) : CryptoBlock :=
  mkCryptoBlock (index b) (timestamp b) (data b) (precedingHash b) v (nonce b).
Definition set_nonce (v : Z) (b : CryptoBlock) : CryptoBlock :=
  mkCryptoBlock (index b) (timestamp b) (data b) (precedingHash b) (hash b) v.

(** A reference to a block object, and the store of the block objects
    allocated so far: [new CryptoBlock(...)] extends it by one cell. *)
Abbreviation addr := nat (only parsing).
Abbreviation heap := (list CryptoBlock) (only parsing).

Inductive error : Type := TypeError | RangeError.

(** The outcome of a call: a value, an exception, or [Timeout] when the
    iterations allowed to the mining loop are used up. *)
Inductive result (A : Type) : Type :=
  | Ok (a : A)
  | Throw (e : error)
  | Timeout.
Arguments Ok {A} a.
Arguments Throw {A} e.
Arguments Timeout {A}.

#[global] Instance result_ret : MRet result := @Ok.
#[global] Instance result_bind : MBind result := fun A B f m =>
  match m with
  | Ok a => f a
  | Throw e => Throw e
  | Timeout => Timeout
  end.

(** Reading a property of what [a] refers to; of [undefined] it throws. *)
Definition deref (a : addr) (h : heap) : result CryptoBlock :=
  match h !! a with
  | Some b => Ok b
  | None => Throw TypeError
  end.

(** The text that [computeHash] hashes (chain.js, lines 35 to 39), with
    string concatenation from left to right.  [nonce_v] is [None] where
    [this.nonce] has not been assigned yet: it reads as [undefined]. *)
Definition hash_message (index_v : Z) (precedingHash_v timestamp_v : string)
    (data_v : json) (nonce_v : option Z) : string :=
  Number_toString index_v
  +:+ precedingHash_v
  +:+ timestamp_v
  +:+ JSON_stringify data_v
  +:+ match nonce_v with
      | Some n => Number_toString n
      | None => "undefined"
      end.

(** [computeHash()] on a constructed block *)
Definition computeHash (this : CryptoBlock) : string :=
  SHA256 (hash_message (index this) (precedingHash this) (timestamp this)
                       (data this) (Some (nonce this))).

(** [constructor(index, timestamp, data, precedingHash=" ")]: the hash is
    computed on line 24, the nonce is assigned on line 25. *)
Definition CryptoBlock_init (index_v : Z) (timestamp_v : string) (data_v : json)
    (precedingHash_v : option string) : CryptoBlock :=
  let p := default " " precedingHash_v in
  let h := SHA256 (hash_message index_v p timestamp_v data_v None) in
  mkCryptoBlock index_v timestamp_v data_v p h 0.

(** [new CryptoBlock(...)]: a fresh object in the store *)
Definition new_CryptoBlock (index_v : Z) (timestamp_v : string) (data_v : json)
    (precedingHash_v : option string) (h : heap) : addr * heap :=
  (length h, h ++ [CryptoBlock_init index_v timestamp_v data_v precedingHash_v]).

(** [Array(n).join("0")]: [n - 1] zeros, and a RangeError when [n] is not
    an array length. *)
Definition Array_join_zeros (n : Z) : result string :=
  if (n <? 0) || (2 ^ 32 <=? n) then Throw RangeError
  else Ok (string_of_list_ascii (replicate (Z.to_nat n - 1) "0"%char)).

(** [s.substring(0, n)]: [n] is clamped to the length of [s] and to 0. *)
Definition substring0 (n : Z) (s : string) : string :=
  substring 0 (Z.to_nat n) s.

(** [proofOfWork(difficulty)]: [fuel] bounds the iterations of the loop. *)
Fixpoint proofOfWork (fuel : nat) (this : addr) (difficulty : Z) (h : heap)
    : result heap :=
  b ← deref this h;
  zeros ← Array_join_zeros (difficulty + 1);
  if strict_neq (VString (substring0 difficulty (hash b))) (VString zeros) then
    match fuel with
    | O => Timeout
    | S fuel' =>
        let b1 := set_nonce (js_incr (nonce b)) b in
        let b2 := set_hash (computeHash b1) b1 in
        proofOfWork fuel' this difficulty (<[this := b2]> h)
    end
  else Ok h.

(** ** The chain *)

Record CryptoBlockchain : Type := mkCryptoBlockchain
  { blockchain : list addr;
    difficulty : Z }.

(** [startGenesisBlock()] *)
Definition startGenesisBlock (h : heap) : addr * heap :=
  new_CryptoBlock 0 "01/01/2020" (JString "Initial Block in the Chain") (Some "0") h.

(** [constructor()]: it declares no parameter, the arguments of the call
    are dropped. *)
Definition new_CryptoBlockchain (args : list Z) (h : heap)
    : CryptoBlockchain * heap :=
  let '(g, h1) := startGenesisBlock h in
  (mkCryptoBlockchain [g] 4, h1).

(** [obtainLatestBlock()]: [None] is [undefined], the element at index -1
    of an empty array. *)
Definition obtainLatestBlock (this : CryptoBlockchain) : option addr :=
  match length (blockchain this) with
  | O => None
  | S n => blockchain this !! n
  end.

(** [addNewBlock(newBlock)] *)
Definition addNewBlock (fuel : nat) (newBlock : addr) (this : CryptoBlockchain)
    (h : heap) : result (CryptoBlockchain * heap) :=
  latest ← from_option deref (fun _ => Throw TypeError) (obtainLatestBlock this) h;
  nb ← deref newBlock h;
  let h1 := <[newBlock := set_precedingHash (hash latest) nb]> h in
  h2 ← proofOfWork fuel newBlock (difficulty this) h1;
  Ok (mkCryptoBlockchain (blockchain this ++ [newBlock]) (difficulty this), h2).

(** What a property access [o.p] reads [o] from: a reference, or
    [undefined] for an array index out of range. *)
Definition read (o : option addr) (h : heap) : result CryptoBlock :=
  match o with
  | Some a => deref a h
  | None => Throw TypeError
  end.

(** The body of the loop of [checkChainValidity()] at the indices [indices].
    Line 136 compares the stored hash with the property [computeHash]
    itself: the method is not called. *)
Fixpoint check_from (indices : list nat) (this : CryptoBlockchain) (h : heap)
    : result bool :=
  match indices with
  | [] => Ok true
  | i :: rest =>
      let currentBlock := blockchain this !! i in
      let precedingBlock := blockchain this !! (i - 1)%nat in
      cb ← read currentBlock h;
      if strict_neq (VString (hash cb)) (VFunction m_computeHash) then Ok false
      else
        pb ← read precedingBlock h;
        if strict_neq (VString (precedingHash cb)) (VString (hash pb)) then Ok false
        else check_from rest this h
  end.

(** [checkChainValidity()]: [for (let i = 1; i < this.blockchain.length; i++)] *)
Definition checkChainValidity (this : CryptoBlockchain) (h : heap) : result bool :=
  check_from (seq 1 (length (blockchain this) - 1)) this h.

(** ** The demo driver, [src/mining.js] *)

Definition block1_data : json :=
  JObject [("sender", JString "Shayan Wilder");
           ("recipient", JString "Lukas Bostock");
           ("quantity", JNumber 50)].

Definition block2_data : json :=
  JObject [("sender", JString "Gabrielle Cairns");
           ("recipient", JString "Drake Hills");
           ("quantity", JNumber 100)].

(** The driver up to its last [addNewBlock]; the call on line 3 passes 5
    to the constructor. *)
Definition mining_js (fuel : nat) : result (CryptoBlockchain * heap) :=
  let '(pinionCoin, h0) := new_CryptoBlockchain [5] [] in
  let '(b1, h1) := new_CryptoBlock 1 "01/01/2020" block1_data None h0 in
  '(pinionCoin1, h2) ← addNewBlock fuel b1 pinionCoin h1;
  let '(b2, h3) := new_CryptoBlock 2 "01/02/2020" block2_data None h2 in
  addNewBlock fuel b2 pinionCoin1 h3.

(** ** Chains built through the interface *)

(** The states a caller reaches with [new CryptoBlockchain], [new CryptoBlock]
    and [addNewBlock] alone; [addNewBlock] may be handed any block object,
    one that is in the chain already too. *)
Inductive reachable : heap -> CryptoBlockchain -> Prop :=
  | reach_construct args h0 c h :
      new_CryptoBlockchain args h0 = (c, h) ->
      reachable h c
  | reach_newBlock h c i t d p b h' :
      reachable h c ->
      new_CryptoBlock i t d p h = (b, h') ->
      reachable h' c
  | reach_addNewBlock h c fuel b c' h' :
      reachable h c ->
      addNewBlock fuel b c h = Ok (c', h') ->
      reachable h' c'.

(** Every reference held by the chain names an allocated block. *)
Definition chain_wf (h : heap) (c : CryptoBlockchain) : Prop :=
  Forall (fun a => (a < length h)%nat) (blockchain c).

(** A write to one field of a block that leaves its [hash] alone. *)
Inductive field_write : Type :=
  | WIndex (v : Z)
  | WTimestamp (v : string)
  | WData (v : json)
  | WPrecedingHash (v : string)
  | WNonce (v : Z).

Definition write_field (w : field_write) (b : CryptoBlock) : CryptoBlock :=
  match w with
  | WIndex v => mkCryptoBlock v (timestamp b) (data b) (precedingHash b) (hash b) (nonce b)
  | WTimestamp v => mkCryptoBlock (index b) v (data b) (precedingHash b) (hash b) (nonce b)
  | WData v => mkCryptoBlock (index b) (timestamp b) v (precedingHash b) (hash b) (nonce b)
  | WPrecedingHash v => set_precedingHash v b
  | WNonce v => set_nonce v b
  end.

(** [block.field = v] on the block at [a] *)
Definition tamper (a : addr) (w : field_write) (h : heap) : heap :=
  match h !! a with
  | Some b => <[a := write_field w b]> h
  | None => h
  end.

(** Blocks that agree on every field [proofOfWork] leaves alone. *)
Definition same_payload (b b' : CryptoBlock) : Prop :=
  index b' = index b /\ timestamp b' = timestamp b /\ data b' = data b
  /\ precedingHash b' = precedingHash b.

(** ** The states of the run of [src/mining.js] *)

(** The blocks and the chain as the run of the driver leaves them, step by
    step; the lemmas of the last part check each of them against the code. *)
Definition genesis : CryptoBlock :=
  mkCryptoBlock 0 "01/01/2020" (JString "Initial Block in the Chain") "0"
    "f556af85a25f2883d26b011d041ab717f3a82f6c9e2d8bd897510c13ec14e61f" 0.

(** The first block of the driver: as constructed, as linked to the
    genesis block, and as mined. *)
Definition block1_new : CryptoBlock :=
  mkCryptoBlock 1 "01/01/2020" block1_data " "
    "e105a7aaa1643ed073df2100af42c84000f3bce878df8432970b09fe8208c105" 0.

Definition block1_linked : CryptoBlock := set_precedingHash (hash genesis) block1_new.

Definition block1_mined : CryptoBlock :=
  mkCryptoBlock 1 "01/01/2020" block1_data
    "f556af85a25f2883d26b011d041ab717f3a82f6c9e2d8bd897510c13ec14e61f"
    "00005727b0028364672229d7a5903e2f115e32890d5fbbe1e74b984e320346ba" 5243.

Definition block2_new : CryptoBlock :=
  mkCryptoBlock 2 "01/02/2020" block2_data " "
    "c647fef819364231493b71684722298de79a20ce1b44d03f41d85dcf0afa92b3" 0.

Definition block2_linked : CryptoBlock := set_precedingHash (hash block1_mined) block2_new.

Definition block2_mined : CryptoBlock :=
  mkCryptoBlock 2 "01/02/2020" block2_data
    "00005727b0028364672229d7a5903e2f115e32890d5fbbe1e74b984e320346ba"
    "000061aad22802bf530b37a4e11caf588b9fb3df43528cd7fe8f351147ac898d" 9725.

Definition pinionCoin0 : CryptoBlockchain := mkCryptoBlockchain [0%nat] 4.
Definition pinionCoin1 : CryptoBlockchain := mkCryptoBlockchain [0%nat; 1%nat] 4.
Definition pinionCoin2 : CryptoBlockchain := mkCryptoBlockchain [0%nat; 1%nat; 2%nat] 4.

(** The block mined by the first [addNewBlock] of the driver, after it is
    handed to [addNewBlock] a second time. *)
Definition block1_relinked : CryptoBlock :=
  set_precedingHash (hash block1_mined) block1_mined.

(** The iterations of the mining loop on the two blocks of the driver. *)
Definition fuel1 : nat := Z.to_nat 5243.
Definition fuel2 : nat := Z.to_nat 9725.

(** ** Predicates of the further properties *)

(** The test that ends the loop of [proofOfWork] (chain.js, line 53), as
    a boolean: the first [d] characters of [s] are [d] zeros. *)
Definition meets_difficulty (d : Z) (s : string) : bool :=
  match Array_join_zeros (d + 1) with
  | Ok zeros => strict_eq (VString (substring0 d s)) (VString zeros)
  | _ => false
  end.

(** What the second test of [checkChainValidity] looks for (line 140):
    each block carries the hash of the block before it. *)
Definition linked (h : heap) (c : CryptoBlockchain) : Prop :=
  forall i a a' b b',
    blockchain c !! i = Some a -> blockchain c !! S i = Some a' ->
    h !! a = Some b -> h !! a' = Some b' ->
    precedingHash b' = hash b.

(** A character of the hexadecimal digest. *)
Definition is_hex (c : ascii) : Prop := In c Sha2.hexchars.

(** * Properties *)

(** ** Test vectors *)

Example Sha2_constants :
  Sha2.primes 8 = [2; 3; 5; 7; 11; 13; 17; 19]
  /\ last (Sha2.primes 64) = Some 311
  /\ (head Sha2.K, last Sha2.K) = (Some 0x428a2f98%uint63, Some 0xc67178f2%uint63)
  /\ (Sha2.ra Sha2.init, Sha2.rh Sha2.init) = (0x6a09e667%uint63, 0x5be0cd19%uint63).
Proof. vm_compute. repeat split. Qed.

Example sha256_abc :
  SHA256 "abc" = "ba7816bf8f01cfea414140de5dae2223b00361a396177a9cb410ff61f20015ad".
Proof. vm_compute. reflexivity. Qed.

Example sha256_two_blocks :
  SHA256 "abcdbcdecdefdefgefghfghighijhijkijkljklmklmnlmnomnopnopq"
  = "248d6a61d20638b8e5c026930c3e6039a33ce45964ff2167f6ecedd419db06c1".
Proof. vm_compute. reflexivity. Qed.

Example genesis_message :
  hash_message 0 "0" "01/01/2020" (JString "Initial Block in the Chain") None
  = "0001/01/2020" +:+ String dquote "Initial Block in the Chain"
    +:+ String dquote "undefined".
Proof. reflexivity. Qed.

Example dquote_code : (nat_of_ascii dquote, nat_of_ascii backslash) = (34%nat, 92%nat).
Proof. reflexivity. Qed.

Example JSON_stringify_escapes :
  JSON_stringify
    (JArray [JString (String "010" (String dquote (String "001" (String backslash "a"))));
             JNull; JBool true; JNumber (-12); JArray []; JObject []])
  = String "[" (String dquote (String backslash (String "n" (String backslash
      (String dquote (String backslash (String "u" (String "0" (String "0"
      (String "0" (String "1" (String backslash (String backslash (String "a"
      (String dquote ",null,true,-12,[],{}]"))))))))))))))).
Proof. vm_compute. reflexivity. Qed.

(** ** Strict comparison and strings *)

Lemma strict_neq_strings (a b : string) :
  strict_neq (VString a) (VString b) = true <-> a <> b.
Proof.
  unfold strict_neq, strict_eq. rewrite negb_true_iff, bool_decide_eq_false.
  reflexivity.
Qed.

Lemma strict_neq_string_method (a : string) (m : method) :
  strict_neq (VString a) (VFunction m) = true.
Proof. reflexivity. Qed.

Lemma get_replicate (k i : nat) (c : ascii) :
  (i < k)%nat -> String.get i (string_of_list_ascii (replicate k c)) = Some c.
Proof.
  revert i. induction k as [|k IH]; intros i Hi; [lia|].
  destruct i as [|i]; simpl; [reflexivity|]. apply IH. lia.
Qed.


Lemma get_substring0 (d : Z) (s : string) (i : nat) :
  Z.of_nat i < d -> String.get i (substring0 d s) = String.get i s.
Proof.
  intros Hi. unfold substring0.
  rewrite substring_correct1 by lia. now rewrite Nat.add_0_r.
Qed.

(** When the test of the mining loop fails, the hash starts with
    [difficulty] zeros. *)
Lemma loop_exit_zeros (d : Z) (s : string) :
  0 <= d ->
  Array_join_zeros (d + 1) = Ok (substring0 d s) ->
  forall i : nat, Z.of_nat i < d -> String.get i s = Some "0"%char.
Proof.
  intros Hd Hz i Hi. unfold Array_join_zeros in Hz.
  destruct ((d + 1 <? 0) || (2 ^ 32 <=? d + 1)); [discriminate|].
  injection Hz as Hz.
  rewrite <- (get_substring0 d s i Hi), <- Hz.
  apply get_replicate. lia.
Qed.

(** ** The store *)

Lemma deref_Ok (a : addr) (h : heap) (b : CryptoBlock) :
  deref a h = Ok b <-> h !! a = Some b.
Proof.
  unfold deref. destruct (h !! a); split; intros H; congruence.
Qed.

Lemma new_CryptoBlock_lookup i t d p (h h' : heap) (b : addr) :
  new_CryptoBlock i t d p h = (b, h') ->
  b = length h /\ length h' = S (length h)
  /\ h' !! b = Some (CryptoBlock_init i t d p)
  /\ forall a, (a < length h)%nat -> h' !! a = h !! a.
Proof.
  unfold new_CryptoBlock. intros [= <- <-]. repeat split.
  - rewrite length_app. simpl. lia.
  - apply list_lookup_middle. reflexivity.
  - intros a Ha. now apply lookup_app_l.
Qed.

(** ** The mining loop *)

Lemma proofOfWork_unfold (fuel : nat) (this : addr) (d : Z) (h : heap) :
  proofOfWork fuel this d h =
  (b ← deref this h;
   zeros ← Array_join_zeros (d + 1);
   if strict_neq (VString (substring0 d (hash b))) (VString zeros) then
     match fuel with
     | O => Timeout
     | S fuel' =>
         let b1 := set_nonce (js_incr (nonce b)) b in
         let b2 := set_hash (computeHash b1) b1 in
         proofOfWork fuel' this d (<[this := b2]> h)
     end
   else Ok h).
Proof. destruct fuel; reflexivity. Qed.

(** One step of the loop, by cases on the two calls that can throw and
    on the test of the [while]. *)
Ltac proofOfWork_cases this d h b zeros Hb Hz Hcmp :=
  rewrite !(proofOfWork_unfold _ this d h);
  destruct (deref this h) as [b| |] eqn:Hb; try discriminate; simpl;
  destruct (Array_join_zeros (d + 1)) as [zeros| |] eqn:Hz; try discriminate; simpl;
  destruct (strict_neq _ _) eqn:Hcmp; try discriminate.

(** A run of [proofOfWork] that returns has rewritten the cell of [this]
    and nothing else, kept its payload, and left a hash that fails the
    test of the loop. *)
Lemma proofOfWork_Ok (fuel : nat) (this : addr) (d : Z) (h h' : heap) :
  proofOfWork fuel this d h = Ok h' ->
  exists b b',
    h !! this = Some b /\ h' = <[this := b']> h /\ same_payload b b'
    /\ Array_join_zeros (d + 1) = Ok (substring0 d (hash b')).
Proof.
  assert (Hstop : forall (b : CryptoBlock) zeros,
    deref this h' = Ok b ->
    strict_neq (VString (substring0 d (hash b))) (VString zeros) = false ->
    exists b0 b', h' !! this = Some b0 /\ h' = <[this := b']> h' /\ same_payload b0 b'
      /\ Ok zeros = Ok (substring0 d (hash b'))).
  { intros b zeros Hb Hcmp. apply deref_Ok in Hb.
    exists b, b. repeat split; [assumption | | ].
    - symmetry. now apply list_insert_id.
    - f_equal. destruct (decide (substring0 d (hash b) = zeros)) as [->|Hne];
        [reflexivity|]. apply strict_neq_strings in Hne. congruence. }
  revert h. induction fuel as [|fuel IH]; intros h;
    proofOfWork_cases this d h b zeros Hb Hz Hcmp.
  - intros [= <-]. now apply (Hstop b).
  - intros Hrun. apply deref_Ok in Hb.
    apply IH in Hrun as (b0 & b' & Hb0 & -> & Hsame & Hexit).
    rewrite list_lookup_insert_eq in Hb0 by (eapply lookup_lt_Some; eassumption).
    injection Hb0 as <-.
    exists b, b'. repeat split; try assumption; try apply Hsame.
    apply list_insert_insert_eq.
  - intros [= <-]. now apply (Hstop b).
Qed.

(** A block whose hash is [computeHash()] of its fields, or which the
    loop does not accept as it is, leaves [proofOfWork] with the hash of
    its fields. *)
Lemma proofOfWork_hash_computed (fuel : nat) (this : addr) (d : Z) (h h' : heap)
    (b : CryptoBlock) (zeros : string) :
  proofOfWork fuel this d h = Ok h' ->
  h !! this = Some b ->
  Array_join_zeros (d + 1) = Ok zeros ->
  hash b = computeHash b
  \/ strict_neq (VString (substring0 d (hash b))) (VString zeros) = true ->
  exists b', h' !! this = Some b' /\ hash b' = computeHash b'.
Proof.
  revert h b. induction fuel as [|fuel IH]; intros h b;
    rewrite proofOfWork_unfold; intros Hrun Hb Hz Hor;
    unfold deref in Hrun; rewrite Hb in Hrun; simpl in Hrun;
    rewrite Hz in Hrun; simpl in Hrun;
    destruct (strict_neq _ _) eqn:Hcmp; try discriminate.
  - injection Hrun as <-. exists b. split; [assumption|].
    destruct Hor as [Hfresh|Hloop]; [assumption | discriminate].
  - set (b2 := set_hash _ _) in Hrun.
    apply (IH (<[this := b2]> h) b2 Hrun); [|exact Hz|].
    + apply list_lookup_insert_eq. eapply lookup_lt_Some, Hb.
    + left. unfold b2, computeHash.
      cbn [hash index precedingHash timestamp data nonce set_hash set_nonce].
      reflexivity.
  - injection Hrun as <-. exists b. split; [assumption|].
    destruct Hor as [Hfresh|Hloop]; [assumption | discriminate].
Qed.

(** ** Appending a block *)

Lemma obtainLatestBlock_last (c : CryptoBlockchain) :
  obtainLatestBlock c = last (blockchain c).
Proof.
  unfold obtainLatestBlock. rewrite last_lookup.
  destruct (blockchain c) as [|a l]; reflexivity.
Qed.

(** What a call of [addNewBlock] that returns has done. *)
Lemma addNewBlock_Ok (fuel : nat) (nb : addr) (c c' : CryptoBlockchain) (h h' : heap) :
  addNewBlock fuel nb c h = Ok (c', h') ->
  exists tail tb b b',
    obtainLatestBlock c = Some tail /\ h !! tail = Some tb /\ h !! nb = Some b
    /\ h' = <[nb := b']> h
    /\ index b' = index b /\ timestamp b' = timestamp b /\ data b' = data b
    /\ precedingHash b' = hash tb
    /\ Array_join_zeros (difficulty c + 1) = Ok (substring0 (difficulty c) (hash b'))
    /\ c' = mkCryptoBlockchain (blockchain c ++ [nb]) (difficulty c).
Proof.
  unfold addNewBlock.
  destruct (obtainLatestBlock c) as [tail|]; simpl; [|discriminate].
  destruct (deref tail h) as [tb| |] eqn:Htb; simpl; try discriminate.
  destruct (deref nb h) as [b| |] eqn:Hb; simpl; try discriminate.
  apply deref_Ok in Htb, Hb.
  destruct (proofOfWork _ _ _ _) as [h2| |] eqn:Hpow; simpl; try discriminate.
  intros [= <- <-].
  apply proofOfWork_Ok in Hpow as (b0 & b' & Hb0 & -> & (Hi & Ht & Hd & Hp) & Hexit).
  rewrite list_lookup_insert_eq in Hb0 by (eapply lookup_lt_Some; eassumption).
  injection Hb0 as <-. simpl in Hi, Ht, Hd, Hp.
  exists tail, tb, b, b'. repeat split; try assumption.
  apply list_insert_insert_eq.
Qed.

Lemma chain_wf_lookup (h : heap) (c : CryptoBlockchain) (i : nat) (a : addr) :
  chain_wf h c -> blockchain c !! i = Some a -> is_Some (h !! a).
Proof.
  intros Hwf Hi. apply lookup_lt_is_Some.
  unfold chain_wf in Hwf. rewrite Forall_lookup in Hwf. eapply Hwf, Hi.
Qed.

Lemma chain_wf_length (h h' : heap) (c : CryptoBlockchain) :
  (length h <= length h')%nat -> chain_wf h c -> chain_wf h' c.
Proof.
  intros Hle Hwf. unfold chain_wf in *.
  eapply Forall_impl; [exact Hwf|]. simpl. intros a Ha. lia.
Qed.

(** The invariant of the chains built through the interface: the
    sequence is not empty and holds allocated blocks only. *)
Lemma reachable_inv (h : heap) (c : CryptoBlockchain) :
  reachable h c -> blockchain c <> [] /\ chain_wf h c.
Proof.
  induction 1 as [args h0 c h Hnew | h c i t d p b h' _ [Hne Hwf] Hnew
                 | h c fuel b c' h' _ [Hne Hwf] Hadd].
  - unfold new_CryptoBlockchain, startGenesisBlock, new_CryptoBlock in Hnew.
    injection Hnew as <- <-. split; [discriminate|].
    unfold chain_wf. simpl. constructor; [|constructor].
    rewrite length_app. simpl. lia.
  - split; [assumption|].
    apply new_CryptoBlock_lookup in Hnew as (_ & Hlen & _).
    eapply chain_wf_length; [|eassumption]. lia.
  - apply addNewBlock_Ok in Hadd
      as (tail & tb & b0 & b' & _ & _ & Hb & -> & _ & _ & _ & _ & _ & ->).
    simpl. split; [now destruct (blockchain c)|].
    unfold chain_wf in *. simpl. rewrite length_insert.
    apply Forall_app. split; [assumption|].
    constructor; [|constructor]. eapply lookup_lt_Some, Hb.
Qed.

(** ** The validity check *)

(** With a second block in the chain, the first test of the loop sends
    [checkChainValidity] to [return false]. *)
Lemma checkChainValidity_second_block (h : heap) (c : CryptoBlockchain) (a : addr) :
  blockchain c !! 1%nat = Some a -> is_Some (h !! a) ->
  checkChainValidity c h = Ok false.
Proof.
  intros Ha [b Hb]. unfold checkChainValidity.
  assert (Hlen : (1 < length (blockchain c))%nat) by (eapply lookup_lt_Some, Ha).
  destruct (length (blockchain c) - 1)%nat as [|n] eqn:Hn; [lia|].
  simpl. rewrite Ha. simpl. unfold deref. rewrite Hb. reflexivity.
Qed.

(** The converse of [addNewBlock_Ok]: the call returns as soon as its
    mining step does. *)
Lemma addNewBlock_intro (fuel : nat) (nb : addr) (c : CryptoBlockchain) (h : heap)
    (tail : addr) (tb b : CryptoBlock) (c' : CryptoBlockchain) (h' : heap) :
  obtainLatestBlock c = Some tail -> h !! tail = Some tb -> h !! nb = Some b ->
  c' = mkCryptoBlockchain (blockchain c ++ [nb]) (difficulty c) ->
  proofOfWork fuel nb (difficulty c) (<[nb := set_precedingHash (hash tb) b]> h) = Ok h' ->
  addNewBlock fuel nb c h = Ok (c', h').
Proof.
  intros Htail Htb Hb -> Hpow. unfold addNewBlock. rewrite Htail. simpl.
  unfold deref. rewrite Htb, Hb. simpl. now rewrite Hpow.
Qed.

(** A result does not depend on the bound: more iterations allowed give
    the same store. *)
Lemma proofOfWork_fuel_mono (fuel fuel' : nat) (this : addr) (d : Z) (h h' : heap) :
  (fuel <= fuel')%nat ->
  proofOfWork fuel this d h = Ok h' -> proofOfWork fuel' this d h = Ok h'.
Proof.
  revert fuel' h. induction fuel as [|fuel IH]; intros fuel' h Hle;
    proofOfWork_cases this d h b zeros Hb Hz Hcmp; try (intros; assumption).
  destruct fuel' as [|fuel']; [lia|]. apply IH. lia.
Qed.

Lemma addNewBlock_fuel_mono (fuel fuel' : nat) (nb : addr) (c : CryptoBlockchain)
    (h : heap) (r : CryptoBlockchain * heap) :
  (fuel <= fuel')%nat ->
  addNewBlock fuel nb c h = Ok r -> addNewBlock fuel' nb c h = Ok r.
Proof.
  intros Hle. unfold addNewBlock.
  destruct (from_option _ _ _ h) as [tb| |]; simpl; try discriminate.
  destruct (deref nb h) as [b| |]; simpl; try discriminate.
  destruct (proofOfWork fuel _ _ _) as [h2| |] eqn:Hpow; simpl; try discriminate.
  now rewrite (proofOfWork_fuel_mono _ _ _ _ _ _ Hle Hpow).
Qed.

(** ** The run of [src/mining.js] *)

Lemma genesis_init :
  CryptoBlock_init 0 "01/01/2020" (JString "Initial Block in the Chain") (Some "0")
  = genesis.
Proof. vm_compute. reflexivity. Qed.

Lemma block1_init : CryptoBlock_init 1 "01/01/2020" block1_data None = block1_new.
Proof. vm_compute. reflexivity. Qed.

Lemma block2_init : CryptoBlock_init 2 "01/02/2020" block2_data None = block2_new.
Proof. vm_compute. reflexivity. Qed.

Lemma new_CryptoBlockchain_eq (args : list Z) (h : heap) :
  new_CryptoBlockchain args h = (mkCryptoBlockchain [length h] 4, h ++ [genesis]).
Proof.
  unfold new_CryptoBlockchain, startGenesisBlock, new_CryptoBlock.
  now rewrite genesis_init.
Qed.

(** Mining the first block: [fuel1] iterations at difficulty 4. *)
Lemma pow_block1_run :
  proofOfWork fuel1 1 4 [genesis; block1_linked] = Ok [genesis; block1_mined].
Proof. vm_cast_no_check (eq_refl (Ok [genesis; block1_mined])). Qed.

(** Mining the second block: [fuel2] iterations at difficulty 4. *)
Lemma pow_block2_run :
  proofOfWork fuel2 2 4 [genesis; block1_mined; block2_linked]
  = Ok [genesis; block1_mined; block2_mined].
Proof. vm_cast_no_check (eq_refl (Ok [genesis; block1_mined; block2_mined])). Qed.

Lemma add_block1_run :
  addNewBlock fuel1 1 pinionCoin0 [genesis; block1_new]
  = Ok (pinionCoin1, [genesis; block1_mined]).
Proof.
  apply (addNewBlock_intro fuel1 1 pinionCoin0 [genesis; block1_new]
           0%nat genesis block1_new);
    [reflexivity | reflexivity | reflexivity | reflexivity | exact pow_block1_run].
Qed.

Lemma add_block2_run :
  addNewBlock fuel2 2 pinionCoin1 [genesis; block1_mined; block2_new]
  = Ok (pinionCoin2, [genesis; block1_mined; block2_mined]).
Proof.
  apply (addNewBlock_intro fuel2 2 pinionCoin1 [genesis; block1_mined; block2_new]
           1%nat block1_mined block2_new);
    [reflexivity | reflexivity | reflexivity | reflexivity | exact pow_block2_run].
Qed.

Lemma fuel_block1_le_block2 : (fuel1 <= fuel2)%nat.
Proof. apply Nat.leb_le. vm_compute. reflexivity. Qed.

(** The driver returns, with three blocks in the chain. *)
Lemma mining_js_run (fuel : nat) :
  (fuel2 <= fuel)%nat ->
  mining_js fuel = Ok (pinionCoin2, [genesis; block1_mined; block2_mined]).
Proof.
  intros Hle. unfold mining_js.
  rewrite new_CryptoBlockchain_eq. unfold new_CryptoBlock.
  rewrite block1_init. cbn [length app].
  change (mkCryptoBlockchain [0%nat] 4) with pinionCoin0.
  rewrite (addNewBlock_fuel_mono fuel1 fuel 1 pinionCoin0 [genesis; block1_new] _
             (Nat.le_trans _ _ _ fuel_block1_le_block2 Hle) add_block1_run).
  cbn [mbind result_bind length app]. rewrite block2_init.
  exact (addNewBlock_fuel_mono fuel2 fuel _ _ _ _ Hle add_block2_run).
Qed.

Lemma reachable_pinionCoin0 : reachable [genesis] pinionCoin0.
Proof. apply (reach_construct [5] []). apply new_CryptoBlockchain_eq. Qed.

Lemma reachable_pinionCoin1 : reachable [genesis; block1_mined] pinionCoin1.
Proof.
  eapply reach_addNewBlock; [|exact add_block1_run].
  eapply (reach_newBlock _ _ 1 "01/01/2020" block1_data None);
    [exact reachable_pinionCoin0|].
  unfold new_CryptoBlock. now rewrite block1_init.
Qed.

Lemma genesis_hash_stale : hash genesis <> computeHash genesis.
Proof. vm_compute. discriminate. Qed.

Lemma block1_new_hash_stale : hash block1_new <> computeHash block1_new.
Proof. vm_compute. discriminate. Qed.

(** A mined block whose loop ran carries the hash of its fields. *)
Lemma block1_mined_hash_fresh : hash block1_mined = computeHash block1_mined.
Proof. vm_compute. reflexivity. Qed.

(** ** The claims *)

(** On any chain built through the interface, once [addNewBlock] has
    returned the validity check answers [false]. *)
Lemma checkChainValidity_after_addNewBlock (fuel : nat) (b : addr)
    (c c' : CryptoBlockchain) (h h' : heap) :
  reachable h c -> addNewBlock fuel b c h = Ok (c', h') ->
  checkChainValidity c' h' = Ok false.
Proof.
  intros Hreach Hadd.
  assert (Hreach' : reachable h' c') by (eapply reach_addNewBlock; eassumption).
  apply reachable_inv in Hreach as [Hne _], Hreach' as [_ Hwf'].
  apply addNewBlock_Ok in Hadd
    as (tail & tb & b0 & b' & _ & _ & _ & _ & _ & _ & _ & _ & _ & Hc').
  assert (Hlen : (1 < length (blockchain c'))%nat).
  { rewrite Hc'. simpl. rewrite length_app. simpl.
    destruct (blockchain c); [congruence | simpl; lia]. }
  apply lookup_lt_is_Some in Hlen as [a Ha].
  eapply checkChainValidity_second_block; [exact Ha|].
  eapply chain_wf_lookup; eassumption.
Qed.

(** C1 (the code departs from the claim): the run of [src/mining.js],
    which constructs the chain and adds two blocks, returns with three
    blocks in the chain, both mined hashes starting with four zeros, and
    [checkChainValidity()] answers [false] on it, not [true]. *)
Theorem mining_js_checkChainValidity_false :
  exists c h b1 b2,
    mining_js fuel2 = Ok (c, h)
    /\ length (blockchain c) = 3%nat
    /\ h !! 1%nat = Some b1 /\ substring0 4 (hash b1) = "0000"
    /\ h !! 2%nat = Some b2 /\ substring0 4 (hash b2) = "0000"
    /\ checkChainValidity c h = Ok false.
Proof.
  exists pinionCoin2, [genesis; block1_mined; block2_mined], block1_mined, block2_mined.
  split; [apply mining_js_run; constructor|].
  repeat split; reflexivity.
Qed.

(** C2 (the code departs from the claim): the constructor sets [nonce] to
    0, but the hash it stores was computed before that assignment, over
    the text ending in [undefined]; on the first block of the driver it
    differs from [computeHash()] over the fields with nonce 0. *)
Theorem CryptoBlock_init_hash_before_nonce :
  (forall i t d p,
      let b := CryptoBlock_init i t d p in
      nonce b = 0
      /\ hash b = SHA256 (hash_message i (default " " p) t d None)
      /\ computeHash b = SHA256 (hash_message i (default " " p) t d (Some 0)))
  /\ hash (CryptoBlock_init 1 "01/01/2020" block1_data None)
     <> computeHash (CryptoBlock_init 1 "01/01/2020" block1_data None).
Proof.
  split; [intros; repeat split|].
  rewrite block1_init. exact block1_new_hash_stale.
Qed.

(** C3 (the code departs from the claim): the genesis block of a freshly
    constructed chain is at rest with nonce 0, and its stored hash is not
    [computeHash()] of its fields. *)
Theorem genesis_block_hash_not_computeHash (args : list Z) (h0 : heap) :
  exists g b,
    blockchain (new_CryptoBlockchain args h0).1 = [g]
    /\ (new_CryptoBlockchain args h0).2 !! g = Some b
    /\ nonce b = 0
    /\ hash b <> computeHash b.
Proof.
  rewrite new_CryptoBlockchain_eq. exists (length h0), genesis. simpl.
  repeat split.
  - now apply list_lookup_middle.
  - exact genesis_hash_stale.
Qed.

(** C4 (the code departs from the claim): the constructor of the chain
    drops its arguments; the difficulty is 4 whatever is passed, and the
    call [new CryptoBlockchain(difficulty = 5)] of the driver gets 4. *)
Theorem new_CryptoBlockchain_difficulty_is_4 (args : list Z) (h0 : heap) :
  difficulty (new_CryptoBlockchain args h0).1 = 4.
Proof. now rewrite new_CryptoBlockchain_eq. Qed.

(** C5: for a difficulty [d >= 0], when [proofOfWork(d)] returns, the
    block is still there and the first [d] characters of its hash are all
    the character 0. *)
Theorem proofOfWork_leading_zeros (fuel : nat) (this : addr) (d : Z) (h h' : heap) :
  0 <= d ->
  proofOfWork fuel this d h = Ok h' ->
  exists b', h' !! this = Some b'
    /\ forall i : nat, Z.of_nat i < d -> String.get i (hash b') = Some "0"%char.
Proof.
  intros Hd Hrun.
  apply proofOfWork_Ok in Hrun as (b & b' & Hb & -> & _ & Hexit).
  exists b'. split.
  - apply list_lookup_insert_eq. eapply lookup_lt_Some, Hb.
  - now apply loop_exit_zeros.
Qed.

Lemma proofOfWork_leading_zeros_witness :
  0 <= 4
  /\ proofOfWork fuel1 1 4 [genesis; block1_linked] = Ok [genesis; block1_mined]
  /\ exists b', [genesis; block1_mined] !! 1%nat = Some b'
       /\ forall i : nat, Z.of_nat i < 4 -> String.get i (hash b') = Some "0"%char.
Proof.
  split; [lia|]. split; [exact pow_block1_run|].
  apply (proofOfWork_leading_zeros fuel1 1 4 [genesis; block1_linked]);
    [lia | exact pow_block1_run].
Defined.

(** C6: when [addNewBlock(b)] returns, the [precedingHash] of [b] is the
    hash that the block at the tail of the chain had before the call, the
    sequence is the former one followed by [b], and [obtainLatestBlock()]
    is [b] itself, so that its hash is the hash of [b]. *)
Theorem addNewBlock_links_and_appends (fuel : nat) (b : addr)
    (c c' : CryptoBlockchain) (h h' : heap) :
  addNewBlock fuel b c h = Ok (c', h') ->
  exists tail tb nb lb,
    obtainLatestBlock c = Some tail /\ h !! tail = Some tb
    /\ h' !! b = Some nb /\ precedingHash nb = hash tb
    /\ blockchain c' = blockchain c ++ [b]
    /\ last (blockchain c') = Some b
    /\ read (obtainLatestBlock c') h' = Ok lb /\ hash lb = hash nb.
Proof.
  intros Hadd.
  apply addNewBlock_Ok in Hadd
    as (tail & tb & b0 & b' & Htail & Htb & Hb & -> & _ & _ & _ & Hp & _ & ->).
  assert (Hnb : <[b := b']> h !! b = Some b')
    by (apply list_lookup_insert_eq; eapply lookup_lt_Some, Hb).
  assert (Hlast : last (blockchain c ++ [b]) = Some b) by apply last_snoc.
  exists tail, tb, b', b'. simpl. repeat split; try assumption.
  rewrite obtainLatestBlock_last. simpl. rewrite Hlast. simpl.
  unfold deref. now rewrite Hnb.
Qed.

Lemma addNewBlock_links_and_appends_witness :
  addNewBlock fuel1 1 pinionCoin0 [genesis; block1_new]
    = Ok (pinionCoin1, [genesis; block1_mined])
  /\ exists tail tb nb lb,
       obtainLatestBlock pinionCoin0 = Some tail
       /\ [genesis; block1_new] !! tail = Some tb
       /\ [genesis; block1_mined] !! 1%nat = Some nb /\ precedingHash nb = hash tb
       /\ blockchain pinionCoin1 = blockchain pinionCoin0 ++ [1%nat]
       /\ last (blockchain pinionCoin1) = Some 1%nat
       /\ read (obtainLatestBlock pinionCoin1) [genesis; block1_mined] = Ok lb
       /\ hash lb = hash nb.
Proof.
  split; [exact add_block1_run|].
  exact (addNewBlock_links_and_appends fuel1 1 pinionCoin0 pinionCoin1
           [genesis; block1_new] [genesis; block1_mined] add_block1_run).
Defined.

(** C7: on a freshly constructed chain, which holds the genesis block
    only, [checkChainValidity()] returns [true]. *)
Theorem checkChainValidity_fresh_chain (args : list Z) (h0 : heap) :
  length (blockchain (new_CryptoBlockchain args h0).1) = 1%nat
  /\ checkChainValidity (new_CryptoBlockchain args h0).1
                        (new_CryptoBlockchain args h0).2 = Ok true.
Proof. rewrite new_CryptoBlockchain_eq. split; reflexivity. Qed.

(** C8: in a chain with a block after the genesis block, a write to the
    index, timestamp, data, precedingHash or nonce of such a block that
    leaves its hash as it is makes [checkChainValidity()] return [false]. *)
Theorem checkChainValidity_tampered (h : heap) (c : CryptoBlockchain)
    (i : nat) (a : addr) (w : field_write) :
  chain_wf h c ->
  (1 <= i)%nat -> blockchain c !! i = Some a ->
  checkChainValidity c (tamper a w h) = Ok false.
Proof.
  intros Hwf Hi Ha.
  assert (Hlen : (1 < length (blockchain c))%nat)
    by (apply lookup_lt_Some in Ha; lia).
  apply lookup_lt_is_Some in Hlen as [a1 Ha1].
  eapply checkChainValidity_second_block; [exact Ha1|].
  apply lookup_lt_is_Some.
  replace (length (tamper a w h)) with (length h).
  - apply lookup_lt_is_Some. eapply chain_wf_lookup; eassumption.
  - unfold tamper. destruct (h !! a); [now rewrite length_insert | reflexivity].
Qed.

Lemma chain_wf_pinionCoin1 : chain_wf [genesis; block1_mined] pinionCoin1.
Proof. repeat constructor. Qed.

Lemma checkChainValidity_tampered_witness :
  chain_wf [genesis; block1_mined] pinionCoin1
  /\ (1 <= 1)%nat /\ blockchain pinionCoin1 !! 1%nat = Some 1%nat
  /\ checkChainValidity pinionCoin1
       (tamper 1 (WData (JString "paid twice")) [genesis; block1_mined]) = Ok false.
Proof.
  split; [exact chain_wf_pinionCoin1|]. split; [lia|]. split; [reflexivity|].
  apply (checkChainValidity_tampered _ _ 1%nat);
    [exact chain_wf_pinionCoin1 | lia | reflexivity].
Defined.

(** C9: in every state reached from the construction of the chain by
    calls of [addNewBlock], the sequence of blocks is not empty and
    [obtainLatestBlock()] returns its last element, an allocated block. *)
Theorem reachable_obtainLatestBlock (h : heap) (c : CryptoBlockchain) :
  reachable h c ->
  blockchain c <> []
  /\ exists a b, obtainLatestBlock c = Some a
       /\ last (blockchain c) = Some a /\ h !! a = Some b.
Proof.
  intros Hreach. apply reachable_inv in Hreach as [Hne Hwf].
  split; [assumption|].
  destruct (last (blockchain c)) as [a|] eqn:Hlast.
  - assert (Hin : is_Some (h !! a)).
    { rewrite last_lookup in Hlast. eapply chain_wf_lookup; eassumption. }
    destruct Hin as [b Hb]. exists a, b.
    now rewrite obtainLatestBlock_last.
  - apply last_None in Hlast. contradiction.
Qed.

Lemma reachable_obtainLatestBlock_witness :
  reachable [genesis; block1_mined] pinionCoin1
  /\ blockchain pinionCoin1 <> []
  /\ exists a b, obtainLatestBlock pinionCoin1 = Some a
       /\ last (blockchain pinionCoin1) = Some a
       /\ [genesis; block1_mined] !! a = Some b.
Proof.
  split; [exact reachable_pinionCoin1|].
  exact (reachable_obtainLatestBlock _ _ reachable_pinionCoin1).
Defined.

Lemma add_block1_again_run :
  addNewBlock 0 1 pinionCoin1 [genesis; block1_mined]
  = Ok (mkCryptoBlockchain [0%nat; 1%nat; 1%nat] 4, [genesis; block1_relinked]).
Proof.
  apply (addNewBlock_intro 0 1 pinionCoin1 [genesis; block1_mined]
           1%nat block1_mined block1_mined); reflexivity.
Qed.

(** C10, as claimed, fails: after the driver has added its first block,
    a second [addNewBlock] of the same object returns at once and has
    rewritten the [precedingHash] of a block that was stored in the chain
    before the call. *)
Lemma addNewBlock_rewrites_stored_block :
  reachable [genesis; block1_mined] pinionCoin1
  /\ blockchain pinionCoin1 !! 1%nat = Some 1%nat
  /\ [genesis; block1_mined] !! 1%nat = Some block1_mined
  /\ addNewBlock 0 1 pinionCoin1 [genesis; block1_mined]
     = Ok (mkCryptoBlockchain [0%nat; 1%nat; 1%nat] 4, [genesis; block1_relinked])
  /\ [genesis; block1_relinked] !! 1%nat = Some block1_relinked
  /\ precedingHash block1_relinked <> precedingHash block1_mined.
Proof.
  split; [exact reachable_pinionCoin1|].
  split; [reflexivity|]. split; [reflexivity|].
  split; [exact add_block1_again_run|]. split; [reflexivity|].
  vm_compute. discriminate.
Qed.

(** C10, amended: [addNewBlock(b)] writes to the cell of [b] and to no
    other (every block other than [b] itself is as it was, and no block is
    allocated or freed), keeps the difficulty of the chain, and appends
    [b] to the sequence. *)
Theorem addNewBlock_frame (fuel : nat) (b : addr) (c c' : CryptoBlockchain)
    (h h' : heap) :
  addNewBlock fuel b c h = Ok (c', h') ->
  (forall a, a <> b -> h' !! a = h !! a)
  /\ length h' = length h
  /\ difficulty c' = difficulty c
  /\ blockchain c' = blockchain c ++ [b].
Proof.
  intros Hadd.
  apply addNewBlock_Ok in Hadd
    as (tail & tb & b0 & b' & _ & _ & _ & -> & _ & _ & _ & _ & _ & ->).
  simpl. repeat split.
  - intros a Ha. now apply list_lookup_insert_ne.
  - apply length_insert.
Qed.

Lemma addNewBlock_frame_witness :
  addNewBlock fuel1 1 pinionCoin0 [genesis; block1_new]
    = Ok (pinionCoin1, [genesis; block1_mined])
  /\ (forall a, a <> 1%nat -> [genesis; block1_mined] !! a = [genesis; block1_new] !! a)
  /\ length [genesis; block1_mined] = length [genesis; block1_new]
  /\ difficulty pinionCoin1 = difficulty pinionCoin0
  /\ blockchain pinionCoin1 = blockchain pinionCoin0 ++ [1%nat].
Proof.
  split; [exact add_block1_run|].
  exact (addNewBlock_frame fuel1 1 pinionCoin0 pinionCoin1
           [genesis; block1_new] [genesis; block1_mined] add_block1_run).
Defined.

(** * Further properties of the code *)

(** ** The mining loop, [proofOfWork] *)


Lemma meets_difficulty_false (d : Z) (s zeros : string) :
  Array_join_zeros (d + 1) = Ok zeros ->
  meets_difficulty d s = negb (strict_neq (VString (substring0 d s)) (VString zeros)).
Proof.
  intros Hz. unfold meets_difficulty, strict_neq. rewrite Hz.
  now rewrite negb_involutive.
Qed.




(** X2: mining is idempotent: once [proofOfWork(d)] has returned, a second
    call with the same difficulty returns at once, whatever the bound on
    its iterations, and leaves the store as it is. *)
Theorem proofOfWork_idempotent (fuel fuel' : nat) (this : addr) (d : Z) (h h' : heap) :
  proofOfWork fuel this d h = Ok h' ->
  proofOfWork fuel' this d h' = Ok h'.
Proof.
  intros Hrun.
  destruct (proofOfWork_Ok _ _ _ _ _ Hrun) as (b & b' & Hb & Hh' & _ & Hexit).
  assert (Hb' : h' !! this = Some b').
  { rewrite Hh'. apply list_lookup_insert_eq. eapply lookup_lt_Some, Hb. }
  rewrite proofOfWork_unfold. unfold deref. rewrite Hb'. simpl.
  rewrite Hexit. simpl.
  destruct (strict_neq _ _) eqn:Hcmp; [|reflexivity].
  apply strict_neq_strings in Hcmp. congruence.
Qed.

Lemma proofOfWork_idempotent_witness :
  proofOfWork fuel1 1 4 [genesis; block1_linked] = Ok [genesis; block1_mined]
  /\ proofOfWork 0 1 4 [genesis; block1_mined] = Ok [genesis; block1_mined].
Proof.
  split; [exact pow_block1_run|].
  exact (proofOfWork_idempotent fuel1 0 1 4 _ _ pow_block1_run).
Defined.

Lemma proofOfWork_done (fuel : nat) (this : addr) (d : Z) (h : heap) (b : CryptoBlock) :
  h !! this = Some b -> meets_difficulty d (hash b) = true ->
  proofOfWork fuel this d h = Ok h.
Proof.
  intros Hb Hmeets. rewrite proofOfWork_unfold. unfold deref. rewrite Hb. simpl.
  unfold meets_difficulty in Hmeets.
  destruct (Array_join_zeros (d + 1)) as [zeros| |]; try discriminate. simpl.
  unfold strict_neq. now rewrite Hmeets.
Qed.

(** [computeHash()] reads five fields of the block, not its [hash]. *)
Lemma computeHash_ext (b b' : CryptoBlock) :
  index b' = index b -> precedingHash b' = precedingHash b ->
  timestamp b' = timestamp b -> data b' = data b -> nonce b' = nonce b ->
  computeHash b' = computeHash b.
Proof. unfold computeHash. now intros -> -> -> -> ->. Qed.

(** X3: mining finds the first nonce.  When the hash of the block does
    not meet the difficulty at the start and the nonce stays below [2^53],
    a call of [proofOfWork] that returns leaves a larger nonce, the hash
    [computeHash()] of the final fields, meeting the difficulty, and no
    nonce in between gives a hash that meets it. *)
Theorem proofOfWork_first_nonce (fuel : nat) (this : addr) (d : Z) (h h' : heap)
    (b : CryptoBlock) :
  proofOfWork fuel this d h = Ok h' ->
  h !! this = Some b ->
  meets_difficulty d (hash b) = false ->
  nonce b + Z.of_nat fuel <= 2 ^ 53 ->
  exists b',
    h' !! this = Some b'
    /\ nonce b < nonce b'
    /\ hash b' = computeHash b'
    /\ meets_difficulty d (hash b') = true
    /\ forall n, nonce b < n < nonce b' ->
         meets_difficulty d (computeHash (set_nonce n b)) = false.
Proof.
  revert h b. induction fuel as [|fuel IH]; intros h b Hrun Hb Hfail Hbound;
    rewrite proofOfWork_unfold in Hrun; unfold deref in Hrun;
    rewrite Hb in Hrun; simpl in Hrun;
    destruct (Array_join_zeros (d + 1)) as [zeros| |] eqn:Hz; try discriminate;
    simpl in Hrun; rewrite (meets_difficulty_false _ _ _ Hz) in Hfail;
    apply negb_false_iff in Hfail; rewrite Hfail in Hrun; [discriminate|].
  assert (Hincr : js_incr (nonce b) = nonce b + 1)
    by (unfold js_incr; destruct (Z.ltb_spec (nonce b) (2 ^ 53)); lia).
  rewrite Hincr in Hrun.
  set (b1 := set_nonce (nonce b + 1) b) in Hrun.
  set (b2 := set_hash (computeHash b1) b1) in Hrun.
  assert (Hb2 : <[this := b2]> h !! this = Some b2)
    by (apply list_lookup_insert_eq; eapply lookup_lt_Some, Hb).
  destruct (meets_difficulty d (hash b2)) eqn:Hmeets.
  - rewrite (proofOfWork_done _ _ _ _ b2 Hb2 Hmeets) in Hrun.
    injection Hrun as <-. exists b2. repeat split; try assumption.
    + simpl. lia.
    + simpl. intros n Hn. lia.
  - destruct (IH _ b2 Hrun Hb2 Hmeets) as (b' & Hb' & Hlt & Hfresh & Hok & Hmin).
    { simpl. lia. }
    exists b'. repeat split; try assumption.
    + simpl in Hlt. lia.
    + intros n Hn. destruct (Z.eq_dec n (nonce b + 1)) as [->|Hne].
      * exact Hmeets.
      * rewrite <- (computeHash_ext (set_nonce n b) (set_nonce n b2)) by reflexivity.
        apply Hmin. simpl. lia.
Qed.

Lemma block1_linked_not_mined : meets_difficulty 4 (hash block1_linked) = false.
Proof. reflexivity. Qed.

Lemma proofOfWork_first_nonce_witness :
  proofOfWork fuel1 1 4 [genesis; block1_linked] = Ok [genesis; block1_mined]
  /\ [genesis; block1_linked] !! 1%nat = Some block1_linked
  /\ meets_difficulty 4 (hash block1_linked) = false
  /\ nonce block1_linked + Z.of_nat fuel1 <= 2 ^ 53
  /\ exists b',
       [genesis; block1_mined] !! 1%nat = Some b'
       /\ nonce block1_linked < nonce b'
       /\ hash b' = computeHash b'
       /\ meets_difficulty 4 (hash b') = true
       /\ forall n, nonce block1_linked < n < nonce b' ->
            meets_difficulty 4 (computeHash (set_nonce n block1_linked)) = false.
Proof.
  assert (Hbound : nonce block1_linked + Z.of_nat fuel1 <= 2 ^ 53)
    by (vm_compute; discriminate).
  split; [exact pow_block1_run|]. split; [reflexivity|].
  split; [exact block1_linked_not_mined|]. split; [exact Hbound|].
  exact (proofOfWork_first_nonce fuel1 1 4 _ _ block1_linked pow_block1_run
           eq_refl block1_linked_not_mined Hbound).
Defined.

(** X4: a difficulty below -1, or of [2^32 - 1] or more, makes
    [Array(difficulty + 1)] throw a RangeError in the test of the loop:
    [proofOfWork] throws on every block, whatever its hash. *)
Theorem proofOfWork_RangeError (fuel : nat) (this : addr) (d : Z) (h : heap)
    (b : CryptoBlock) :
  h !! this = Some b ->
  d < -1 \/ 2 ^ 32 - 1 <= d ->
  proofOfWork fuel this d h = Throw RangeError.
Proof.
  intros Hb Hd. rewrite proofOfWork_unfold. unfold deref. rewrite Hb. simpl.
  unfold Array_join_zeros.
  destruct (Z.ltb_spec (d + 1) 0), (Z.leb_spec (2 ^ 32) (d + 1));
    try reflexivity; lia.
Qed.

Lemma proofOfWork_RangeError_witness :
  [genesis] !! 0%nat = Some genesis
  /\ (-2 < -1 \/ 2 ^ 32 - 1 <= -2)
  /\ proofOfWork 7 0 (-2) [genesis] = Throw RangeError.
Proof.
  split; [reflexivity|]. split; [left; lia|].
  apply (proofOfWork_RangeError 7 0 (-2) [genesis] genesis); [reflexivity | left; lia].
Defined.

Lemma substring0_nonpos (d : Z) (s : string) : d <= 0 -> substring0 d s = EmptyString.
Proof.
  intros Hd. unfold substring0. replace (Z.to_nat d) with 0%nat by lia.
  now destruct s.
Qed.

(** X5: at difficulty 0 (and at -1) the test of the loop compares two
    empty strings: [proofOfWork] returns at once and leaves the block, its
    nonce and its hash as they are. *)
Theorem proofOfWork_difficulty_0 (fuel : nat) (this : addr) (d : Z) (h : heap)
    (b : CryptoBlock) :
  h !! this = Some b ->
  -1 <= d <= 0 ->
  proofOfWork fuel this d h = Ok h.
Proof.
  intros Hb Hd. apply (proofOfWork_done _ _ _ _ b Hb).
  unfold meets_difficulty. rewrite substring0_nonpos by lia.
  assert (Hcases : d = -1 \/ d = 0) by lia.
  destruct Hcases as [-> | ->]; reflexivity.
Qed.

Lemma proofOfWork_difficulty_0_witness :
  [genesis; block1_linked] !! 1%nat = Some block1_linked
  /\ -1 <= 0 <= 0
  /\ proofOfWork 0 1 0 [genesis; block1_linked] = Ok [genesis; block1_linked].
Proof.
  split; [reflexivity|]. split; [lia|].
  apply (proofOfWork_difficulty_0 0 1 0 _ block1_linked); [reflexivity | lia].
Defined.

(** ** The digest, [computeHash] *)

Lemma string_app_assoc (a b c : string) : (a +:+ b) +:+ c = a +:+ (b +:+ c).
Proof.
  induction a as [|x a IH]; [reflexivity|].
  change (String x ((a +:+ b) +:+ c) = String x (a +:+ (b +:+ c))).
  now rewrite IH.
Qed.

Lemma char_at_In (l : list ascii) (n : int) :
  Sha2.char_at l n = "0"%char \/ In (Sha2.char_at l n) l.
Proof.
  revert n. induction l as [|c l IH]; intros n; simpl; [now left|].
  destruct (n =? 0)%uint63; [right; now left|].
  destruct (IH (n - 1)%uint63) as [H|H]; [now left | right; now right].
Qed.

Lemma hexdigit_is_hex (n : int) : is_hex (Sha2.hexdigit n).
Proof.
  unfold is_hex, Sha2.hexdigit.
  destruct (char_at_In Sha2.hexchars n) as [-> | H]; [now left | assumption].
Qed.

Lemma hex32_is_hex (x : int) (rest : string) :
  Forall is_hex (list_ascii_of_string rest) ->
  Forall is_hex (list_ascii_of_string (Sha2.hex32 x rest)).
Proof.
  intros Hrest. unfold Sha2.hex32.
  cbn [fold_right list_ascii_of_string].
  repeat (constructor; [apply hexdigit_is_hex|]). exact Hrest.
Qed.

Lemma hex32_length (x : int) (rest : string) :
  String.length (Sha2.hex32 x rest) = (8 + String.length rest)%nat.
Proof. reflexivity. Qed.

(** X7: [computeHash()] returns a string of 64 characters, each one of
    [0123456789abcdef], on every block. *)
Theorem computeHash_hex64 (b : CryptoBlock) :
  String.length (computeHash b) = 64%nat
  /\ Forall is_hex (list_ascii_of_string (computeHash b)).
Proof.
  unfold computeHash, SHA256, Sha2.to_hex. split.
  - now rewrite !hex32_length.
  - repeat apply hex32_is_hex. constructor.
Qed.

(** X8: the digest runs the fields together without a separator, so it
    cannot tell where [precedingHash] ends and [timestamp] starts: moving
    characters from the end of the one to the start of the other leaves
    [computeHash()] unchanged. *)
Theorem computeHash_field_boundary (i : Z) (p q t : string) (d : json)
    (x x' : string) (n : Z) :
  computeHash (mkCryptoBlock i t d (p +:+ q) x n)
  = computeHash (mkCryptoBlock i (q +:+ t) d p x' n).
Proof.
  unfold computeHash. apply (f_equal SHA256). unfold hash_message.
  cbn [index precedingHash timestamp data nonce].
  rewrite !string_app_assoc. reflexivity.
Qed.





(** ** The chain *)

(** X9: on a chain whose references are all allocated,
    [checkChainValidity()] never throws, and it returns [true] exactly
    when the chain has at most one block: with a second block the test of
    line 136 fails at the first iteration. *)
Theorem checkChainValidity_true_iff_one_block (h : heap) (c : CryptoBlockchain) :
  chain_wf h c ->
  checkChainValidity c h = Ok (bool_decide (length (blockchain c) <= 1)%nat).
Proof.
  intros Hwf. destruct (blockchain c) as [|a [|a' l]] eqn:Hbc.
  - unfold checkChainValidity. now rewrite Hbc.
  - unfold checkChainValidity. now rewrite Hbc.
  - rewrite bool_decide_eq_false_2 by (simpl; lia).
    apply (checkChainValidity_second_block h c a'); [now rewrite Hbc|].
    apply (chain_wf_lookup h c 1 a' Hwf). now rewrite Hbc.
Qed.

Lemma checkChainValidity_true_iff_one_block_witness :
  chain_wf [genesis; block1_mined] pinionCoin1
  /\ checkChainValidity pinionCoin1 [genesis; block1_mined]
     = Ok (bool_decide (length (blockchain pinionCoin1) <= 1)%nat).
Proof.
  split; [exact chain_wf_pinionCoin1|].
  exact (checkChainValidity_true_iff_one_block _ _ chain_wf_pinionCoin1).
Defined.

(** X10: on a chain whose array has been emptied, [obtainLatestBlock()]
    is [undefined] and [addNewBlock] throws a TypeError when it reads its
    [hash]: nothing is appended. *)
Theorem addNewBlock_empty_chain (fuel : nat) (nb : addr) (c : CryptoBlockchain)
    (h : heap) :
  blockchain c = [] ->
  obtainLatestBlock c = None /\ addNewBlock fuel nb c h = Throw TypeError.
Proof.
  intros Hbc. unfold addNewBlock, obtainLatestBlock. rewrite Hbc. now split.
Qed.

Lemma addNewBlock_empty_chain_witness :
  blockchain (mkCryptoBlockchain [] 4) = []
  /\ obtainLatestBlock (mkCryptoBlockchain [] 4) = None
  /\ addNewBlock fuel1 1 (mkCryptoBlockchain [] 4) [genesis; block1_new]
     = Throw TypeError.
Proof.
  split; [reflexivity|].
  exact (addNewBlock_empty_chain fuel1 1 (mkCryptoBlockchain [] 4)
           [genesis; block1_new] eq_refl).
Defined.



(** ** Invariants of the chains built through the interface *)

Lemma reachable_difficulty (h : heap) (c : CryptoBlockchain) :
  reachable h c -> difficulty c = 4.
Proof.
  induction 1 as [args h0 c h Hnew | | h c fuel b c' h' _ IH Hadd].
  - rewrite new_CryptoBlockchain_eq in Hnew. now injection Hnew as <- _.
  - assumption.
  - apply addNewBlock_Ok in Hadd
      as (tail & tb & b0 & b' & _ & _ & _ & _ & _ & _ & _ & _ & _ & ->).
    exact IH.
Qed.

Lemma proofOfWork_no_throw (fuel : nat) (this : addr) (d : Z) (h : heap)
    (b : CryptoBlock) (e : error) :
  h !! this = Some b -> -1 <= d < 2 ^ 32 - 1 ->
  proofOfWork fuel this d h <> Throw e.
Proof.
  intros Hb Hd. revert h b Hb. induction fuel as [|fuel IH]; intros h b Hb;
    rewrite proofOfWork_unfold; unfold deref; rewrite Hb; simpl;
    unfold Array_join_zeros;
    destruct (Z.ltb_spec (d + 1) 0), (Z.leb_spec (2 ^ 32) (d + 1)); try lia;
    simpl; destruct (strict_neq _ _); try discriminate.
  cbv zeta. set (b2 := set_hash _ _). apply (IH _ b2).
  apply list_lookup_insert_eq. eapply lookup_lt_Some, Hb.
Qed.

Lemma reachable_obtainLatestBlock_inv (h : heap) (c : CryptoBlockchain) :
  reachable h c ->
  exists tail tb, obtainLatestBlock c = Some tail /\ h !! tail = Some tb.
Proof.
  intros Hreach. apply reachable_inv in Hreach as [Hne Hwf].
  rewrite obtainLatestBlock_last.
  destruct (last (blockchain c)) as [a|] eqn:Hlast.
  - rewrite last_lookup in Hlast.
    destruct (chain_wf_lookup _ _ _ _ Hwf Hlast) as [b Hb]. now exists a, b.
  - apply last_None in Hlast. contradiction.
Qed.

(** X11: on a chain built through the interface the difficulty is 4, and
    [addNewBlock] of an allocated block does not throw: it returns, or
    its mining loop is still running when the bound is reached. *)
Theorem reachable_addNewBlock_no_throw (fuel : nat) (nb : addr)
    (c : CryptoBlockchain) (h : heap) (e : error) :
  reachable h c -> (nb < length h)%nat ->
  difficulty c = 4 /\ addNewBlock fuel nb c h <> Throw e.
Proof.
  intros Hreach Hnb. pose proof (reachable_difficulty _ _ Hreach) as Hd.
  split; [exact Hd|].
  destruct (reachable_obtainLatestBlock_inv _ _ Hreach) as (tail & tb & Htail & Htb).
  apply lookup_lt_is_Some in Hnb as [b Hb].
  unfold addNewBlock. rewrite Htail. simpl. unfold deref. rewrite Htb, Hb. simpl.
  rewrite Hd.
  destruct (proofOfWork _ _ _ _) as [h2|e'|] eqn:Hpow; simpl; try discriminate.
  exfalso. revert Hpow.
  apply (proofOfWork_no_throw _ _ _ _ (set_precedingHash (hash tb) b)); [|lia].
  apply list_lookup_insert_eq. eapply lookup_lt_Some, Hb.
Qed.

Lemma reachable_addNewBlock_no_throw_witness :
  reachable [genesis; block1_mined] pinionCoin1
  /\ (1 < length [genesis; block1_mined])%nat
  /\ difficulty pinionCoin1 = 4
  /\ addNewBlock 0 1 pinionCoin1 [genesis; block1_mined] <> Throw TypeError.
Proof.
  split; [exact reachable_pinionCoin1|]. split; [simpl; lia|].
  apply (reachable_addNewBlock_no_throw 0 1 pinionCoin1 [genesis; block1_mined]
           TypeError reachable_pinionCoin1).
  simpl. lia.
Defined.

Lemma Array_join_zeros_5 (s : string) :
  Array_join_zeros (4 + 1) = Ok s -> s = "0000".
Proof. intros [= <-]. reflexivity. Qed.

(** X12: in every state of a chain built through the interface, each
    block after the first has a hash that starts with four zeros, also
    when a block object has been added more than once. *)
Theorem reachable_blocks_mined (h : heap) (c : CryptoBlockchain) :
  reachable h c ->
  forall i a, (1 <= i)%nat -> blockchain c !! i = Some a ->
    exists b, h !! a = Some b /\ substring0 4 (hash b) = "0000".
Proof.
  induction 1 as [args h0 c h Hnew | h c i0 t d p nb h' Hreach IH Hnew
                 | h c fuel nb c' h' Hreach IH Hadd]; intros i a Hi Ha.
  - rewrite new_CryptoBlockchain_eq in Hnew. injection Hnew as <- <-.
    destruct i as [|i]; [lia | discriminate].
  - destruct (IH i a Hi Ha) as (b & Hb & Hzeros). exists b. split; [|exact Hzeros].
    apply new_CryptoBlock_lookup in Hnew as (_ & _ & _ & Hold).
    rewrite Hold; [exact Hb | eapply lookup_lt_Some, Hb].
  - pose proof (reachable_difficulty _ _ Hreach) as Hd.
    apply addNewBlock_Ok in Hadd
      as (tail & tb & b0 & b' & _ & _ & Hb0 & -> & _ & _ & _ & _ & Hexit & ->).
    rewrite Hd in Hexit. apply Array_join_zeros_5 in Hexit.
    assert (Hnb : <[nb := b']> h !! nb = Some b')
      by (apply list_lookup_insert_eq; eapply lookup_lt_Some, Hb0).
    simpl in Ha. destruct (decide (a = nb)) as [-> | Hne].
    + exists b'. now split.
    + apply lookup_app_Some in Ha as [Ha | [_ Ha]].
      * destruct (IH i a Hi Ha) as (b & Hb & Hzeros). exists b.
        split; [|exact Hzeros]. rewrite list_lookup_insert_ne by congruence.
        exact Hb.
      * apply list_lookup_singleton_Some in Ha as [_ Ha]. congruence.
Qed.

Lemma reachable_blocks_mined_witness :
  reachable [genesis; block1_mined] pinionCoin1
  /\ (1 <= 1)%nat /\ blockchain pinionCoin1 !! 1%nat = Some 1%nat
  /\ exists b, [genesis; block1_mined] !! 1%nat = Some b
       /\ substring0 4 (hash b) = "0000".
Proof.
  split; [exact reachable_pinionCoin1|]. split; [lia|]. split; [reflexivity|].
  apply (reachable_blocks_mined _ _ reachable_pinionCoin1 1%nat 1%nat);
    [lia | reflexivity].
Defined.

(** X13: in every state of a chain built through the interface, the
    first block of the sequence has the index, timestamp and data of the
    genesis block. *)
Theorem reachable_genesis_first (h : heap) (c : CryptoBlockchain) :
  reachable h c ->
  exists g b,
    blockchain c !! 0%nat = Some g /\ h !! g = Some b
    /\ index b = 0 /\ timestamp b = "01/01/2020"
    /\ data b = JString "Initial Block in the Chain".
Proof.
  induction 1 as [args h0 c h Hnew | h c i0 t d p nb h' Hreach IH Hnew
                 | h c fuel nb c' h' Hreach IH Hadd].
  - rewrite new_CryptoBlockchain_eq in Hnew. injection Hnew as <- <-.
    exists (length h0), genesis. repeat split.
    now apply list_lookup_middle.
  - destruct IH as (g & b & Hg & Hb & Hfields). exists g, b.
    repeat split; try apply Hfields; try assumption.
    apply new_CryptoBlock_lookup in Hnew as (_ & _ & _ & Hold).
    rewrite Hold; [exact Hb | eapply lookup_lt_Some, Hb].
  - destruct IH as (g & b & Hg & Hb & Hi & Ht & Hd).
    apply addNewBlock_Ok in Hadd
      as (tail & tb & b0 & b' & _ & _ & Hb0 & -> & Hi' & Ht' & Hd' & _ & _ & ->).
    exists g. simpl. destruct (decide (g = nb)) as [-> | Hne].
    + exists b'. rewrite Hb0 in Hb. injection Hb as ->.
      repeat split; try congruence.
      * now apply lookup_app_l_Some.
      * apply list_lookup_insert_eq. eapply lookup_lt_Some, Hb0.
    + exists b. repeat split; try assumption.
      * now apply lookup_app_l_Some.
      * rewrite list_lookup_insert_ne by congruence. exact Hb.
Qed.

Lemma reachable_genesis_first_witness :
  reachable [genesis; block1_mined] pinionCoin1
  /\ exists g b,
       blockchain pinionCoin1 !! 0%nat = Some g
       /\ [genesis; block1_mined] !! g = Some b
       /\ index b = 0 /\ timestamp b = "01/01/2020"
       /\ data b = JString "Initial Block in the Chain".
Proof.
  split; [exact reachable_pinionCoin1|].
  exact (reachable_genesis_first _ _ reachable_pinionCoin1).
Defined.

(** X14: the linkage of the chain.  In every state of a chain built
    through the interface in which no block object occurs twice, each
    block carries as [precedingHash] the hash of the block before it. *)
Theorem reachable_linked (h : heap) (c : CryptoBlockchain) :
  reachable h c -> NoDup (blockchain c) -> linked h c.
Proof.
  induction 1 as [args h0 c h Hnew | h c i0 t d p nb h' Hreach IH Hnew
                 | h c fuel nb c' h' Hreach IH Hadd]; intros Hnodup.
  - rewrite new_CryptoBlockchain_eq in Hnew. injection Hnew as <- <-.
    intros i a a' b b' _ Ha'. discriminate.
  - apply new_CryptoBlock_lookup in Hnew as (_ & _ & _ & Hold).
    destruct (reachable_inv _ _ Hreach) as [_ Hwf].
    intros i a a' b b' Ha Ha' Hb Hb'.
    destruct (chain_wf_lookup _ _ _ _ Hwf Ha) as [x Hx].
    destruct (chain_wf_lookup _ _ _ _ Hwf Ha') as [x' Hx'].
    rewrite Hold in Hb by (eapply lookup_lt_Some, Hx).
    rewrite Hold in Hb' by (eapply lookup_lt_Some, Hx').
    exact (IH Hnodup i a a' b b' Ha Ha' Hb Hb').
  - apply addNewBlock_Ok in Hadd
      as (tail & tb & b0 & bn & Htail & Htb & Hb0 & -> & _ & _ & _ & Hp & _ & ->).
    simpl in Hnodup. apply NoDup_app in Hnodup as (Hnodup & Hfresh & _).
    assert (Hnotin : nb ∉ blockchain c).
    { intros Hin. apply (Hfresh nb Hin). now left. }
    assert (Hother : forall j x, blockchain c !! j = Some x -> x <> nb).
    { intros j x Hx ->. apply Hnotin. eapply list_elem_of_lookup_2, Hx. }
    assert (Hnb : <[nb := bn]> h !! nb = Some bn)
      by (apply list_lookup_insert_eq; eapply lookup_lt_Some, Hb0).
    rewrite obtainLatestBlock_last, last_lookup in Htail.
    intros i a a' b b' Ha Ha' Hb Hb'. simpl in Ha, Ha'.
    apply lookup_app_Some in Ha' as [Ha' | [Hlen Ha']].
    + assert (Ha0 : blockchain c !! i = Some a).
      { apply lookup_app_Some in Ha as [Ha | [Hge _]]; [exact Ha|].
        apply lookup_lt_Some in Ha'. lia. }
      rewrite list_lookup_insert_ne in Hb by (symmetry; eapply Hother, Ha0).
      rewrite list_lookup_insert_ne in Hb' by (symmetry; eapply Hother, Ha').
      exact (IH Hnodup i a a' b b' Ha0 Ha' Hb Hb').
    + apply list_lookup_singleton_Some in Ha' as [Hi <-].
      assert (Hieq : i = pred (length (blockchain c))) by lia.
      assert (Ha0 : blockchain c !! i = Some a).
      { apply lookup_app_Some in Ha as [Ha | [Hge _]]; [exact Ha | lia]. }
      rewrite Hieq, Htail in Ha0. injection Ha0 as <-.
      rewrite list_lookup_insert_ne in Hb
        by (symmetry; eapply (Hother (pred (length (blockchain c)))), Htail).
      rewrite Hnb in Hb'. injection Hb' as <-.
      rewrite Htb in Hb. injection Hb as <-. exact Hp.
Qed.

Lemma NoDup_pinionCoin2 : NoDup (blockchain pinionCoin2).
Proof. apply (bool_decide_unpack (NoDup [0%nat; 1%nat; 2%nat])). exact I. Qed.

Lemma reachable_pinionCoin2 :
  reachable [genesis; block1_mined; block2_mined] pinionCoin2.
Proof.
  eapply reach_addNewBlock; [|exact add_block2_run].
  eapply (reach_newBlock _ _ 2 "01/02/2020" block2_data None);
    [exact reachable_pinionCoin1|].
  unfold new_CryptoBlock. now rewrite block2_init.
Qed.

Lemma reachable_linked_witness :
  reachable [genesis; block1_mined; block2_mined] pinionCoin2
  /\ NoDup (blockchain pinionCoin2)
  /\ linked [genesis; block1_mined; block2_mined] pinionCoin2.
Proof.
  split; [exact reachable_pinionCoin2|]. split; [exact NoDup_pinionCoin2|].
  exact (reachable_linked _ _ reachable_pinionCoin2 NoDup_pinionCoin2).
Defined.

(** X16: the genesis block is never mined.  In every state of a chain
    built through the interface in which no block object occurs twice,
    the first block is the genesis block exactly as the constructor of
    the chain made it, with nonce 0 and a hash that does not meet the
    difficulty. *)
Theorem reachable_genesis_untouched (h : heap) (c : CryptoBlockchain) :
  reachable h c -> NoDup (blockchain c) ->
  exists g,
    blockchain c !! 0%nat = Some g /\ h !! g = Some genesis
    /\ meets_difficulty (difficulty c) (hash genesis) = false.
Proof.
  intros Hreach. pose proof (reachable_difficulty _ _ Hreach) as Hd.
  rewrite Hd. clear Hd.
  induction Hreach as [args h0 c h Hnew | h c i0 t d p nb h' Hreach IH Hnew
                      | h c fuel nb c' h' Hreach IH Hadd]; intros Hnodup.
  - rewrite new_CryptoBlockchain_eq in Hnew. injection Hnew as <- <-.
    exists (length h0). repeat split. now apply list_lookup_middle.
  - destruct (IH Hnodup) as (g & Hg & Hb & Hmeets). exists g.
    repeat split; try assumption.
    apply new_CryptoBlock_lookup in Hnew as (_ & _ & _ & Hold).
    rewrite Hold; [exact Hb | eapply lookup_lt_Some, Hb].
  - apply addNewBlock_Ok in Hadd
      as (tail & tb & b0 & bn & _ & _ & _ & -> & _ & _ & _ & _ & _ & ->).
    simpl in Hnodup. apply NoDup_app in Hnodup as (Hnodup & Hfresh & _).
    destruct (IH Hnodup) as (g & Hg & Hb & Hmeets). exists g. simpl.
    repeat split; try assumption.
    + now apply lookup_app_l_Some.
    + rewrite list_lookup_insert_ne; [exact Hb|].
      intros <-. apply (Hfresh nb); [eapply list_elem_of_lookup_2, Hg | now left].
Qed.

Lemma reachable_genesis_untouched_witness :
  reachable [genesis; block1_mined; block2_mined] pinionCoin2
  /\ NoDup (blockchain pinionCoin2)
  /\ exists g,
       blockchain pinionCoin2 !! 0%nat = Some g
       /\ [genesis; block1_mined; block2_mined] !! g = Some genesis
       /\ meets_difficulty (difficulty pinionCoin2) (hash genesis) = false.
Proof.
  split; [exact reachable_pinionCoin2|]. split; [exact NoDup_pinionCoin2|].
  exact (reachable_genesis_untouched _ _ reachable_pinionCoin2 NoDup_pinionCoin2).
Defined.
